(** * QuipScript: interpreter, JIT, AOT compiler and optimizing AOT compiler

    A shallow embedding of the four QuipScript drivers of this repository:
    - the interpreter (second script of [src/jit.js]),
    - the JIT (first script of [src/jit.js], [eval] of the generated program),
    - the AOT compiler ([src/compiler.js], writes [./output.js]),
    - the optimizing AOT compiler ([src/unnamed/part_000], writes
      [./optimized-output.js]).

    Text is modelled as byte strings ([String.string]).  The effects of the
    scripts ([console.log], [writeFileSync], [throw]) are threaded through a
    small state-and-exception monad over a [world].  The programs generated
    by the compilers are executed by a model of the JavaScript fragment they
    are written in: newline-separated statements [let string = ""],
    [string += '...'], [console.log(string)] and [console.log('...')], with
    single-quoted string literals decoded by the JavaScript escape rules. *)

From Stdlib Require Import String Ascii List Bool Arith Lia.
Import ListNotations.
Open Scope list_scope.
Open Scope string_scope.

(** ** Characters *)

Definition CR : ascii := "013"%char.
Definition LF : ascii := "010"%char.
Definition dquote : ascii := "034"%char.
Definition squote : ascii := "'"%char.
Definition backslash : ascii := "\"%char.

(** The line terminator the scripts split on: ["\r\n"]. *)
Definition crlf : string := String CR (String LF EmptyString).
Definition nl : string := String LF EmptyString.

(** ** JavaScript values, errors and the world *)

Inductive js_error :=
| Error (msg : string)      (** [new Error(msg)] *)
| SyntaxError
| ReferenceError
| Unsupported.              (** program text outside the modelled fragment:
                                the model predicts nothing about it *)

(** [throw new Error("ERROR I AM AN INVALID LINE")], the only error the
    drivers raise themselves. *)
Definition invalid_line_error : js_error := Error "ERROR I AM AN INVALID LINE".

Record world := mkWorld {
  stdout : list string;                 (** lines written by [console.log] *)
  files : string -> option string       (** the file system *)
}.

Inductive result (A : Type) :=
| Ok (a : A)
| Throw (e : js_error).
Arguments Ok {A} a.
Arguments Throw {A} e.

(** ** The state-and-exception monad of a running script *)

Definition M (A : Type) : Type := world -> world * result A.

Definition ret {A} (a : A) : M A := fun w => (w, Ok a).

Definition bind {A B} (m : M A) (f : A -> M B) : M B :=
  fun w => match m w with
           | (w', Ok a) => f a w'
           | (w', Throw e) => (w', Throw e)
           end.

Definition throw {A} (e : js_error) : M A := fun w => (w, Throw e).

Notation "x <- m ;; k" := (bind m (fun x => k))
  (at level 61, m at next level, right associativity).
Notation "m ;;; k" := (bind m (fun _ => k))
  (at level 61, right associativity).

(** [console.log(s)] *)
Definition console_log (s : string) : M unit :=
  fun w => (mkWorld (stdout w ++ [s])%list (files w), Ok tt).

Definition update_file (fs : string -> option string) (path content : string)
  : string -> option string :=
  fun p => if String.eqb p path then Some content else fs p.

(** [writeFileSync(path, content)]: replaces the whole file. *)
Definition writeFileSync (path content : string) : M unit :=
  fun w => (mkWorld (stdout w) (update_file (files w) path content), Ok tt).

(** [array.forEach(callback)] where the callback updates the variables of
    the enclosing script (threaded here as the state [S]); a [throw] in the
    callback aborts the loop. *)
Fixpoint forEach {S} (step : S -> string -> M S) (s : S) (ls : list string)
  : M S :=
  match ls with
  | [] => ret s
  | l :: ls' => s' <- step s l ;; forEach step s' ls'
  end.

(** ** [sourceCode.split("\r\n")] *)

Definition cons_head (c : ascii) (ls : list string) : list string :=
  match ls with
  | [] => [String c EmptyString]
  | x :: xs => String c x :: xs
  end.

Fixpoint split_crlf (s : string) : list string :=
  match s with
  | EmptyString => [EmptyString]
  | String c s' =>
      if Ascii.eqb c CR then
        match s' with
        | String c2 s'' =>
            if Ascii.eqb c2 LF then EmptyString :: split_crlf s''
            else cons_head c (split_crlf s')
        | EmptyString => cons_head c (split_crlf s')
        end
      else cons_head c (split_crlf s')
  end.

(** ** The first-character dispatch shared by all four drivers

    Every driver's [forEach] callback is the chain
    [if (line[0] == "p") ... else if (line[0] == "t") ... else if
    (line[0] == "#") {} else ...]; [line[0]] is [undefined] on the empty
    line, which equals none of the three. *)

Inductive stmt :=
| Print
| Invalid
| Comment
| Emit (line : string).

Definition first_char (line : string) : option ascii :=
  match line with
  | EmptyString => None
  | String c _ => Some c
  end.

Definition is_char (o : option ascii) (c : ascii) : bool :=
  match o with
  | Some c' => Ascii.eqb c' c
  | None => false
  end.

Definition classify (line : string) : stmt :=
  if is_char (first_char line) "p"%char then Print
  else if is_char (first_char line) "t"%char then Invalid
  else if is_char (first_char line) "#"%char then Comment
  else Emit line.

(** ** The interpreter (src/jit.js, second script) *)

Definition interp_step (string_ : string) (line : string) : M string :=
  match classify line with
  | Print => console_log string_ ;;; ret string_
  | Invalid => throw invalid_line_error
  | Comment => ret string_
  | Emit l => ret (string_ ++ l)
  end.

Definition interpreter_main (sourceCode : string) : M unit :=
  _ <- forEach interp_step "" (split_crlf sourceCode) ;; ret tt.

(** ** The AOT compiler (src/compiler.js); its loop is also the JIT's *)

(** ['let string = ""\n'] *)
Definition prelude : string :=
  "let string = " ++ String dquote (String dquote nl).

Definition compile_step (program : string) (line : string) : M string :=
  match classify line with
  | Print => ret (program ++ "console.log(string)" ++ nl)
  | Invalid => throw invalid_line_error
  | Comment => ret program
  | Emit l => ret (program ++ "string += '" ++ l ++ "'" ++ nl)
  end.

Definition compiler_main (sourceCode : string) : M unit :=
  program <- forEach compile_step prelude (split_crlf sourceCode) ;;
  writeFileSync "./output.js" program.

(** ** The optimizing AOT compiler (src/unnamed/part_000) *)

Definition opt_step (st : string * string) (line : string) : M (string * string) :=
  let '(program, string_) := st in
  match classify line with
  | Print => ret (program ++ "console.log('" ++ string_ ++ "')" ++ nl, string_)
  | Invalid => throw invalid_line_error
  | Comment => ret (program, string_)
  | Emit l => ret (program, string_ ++ l)
  end.

Definition optimizer_main (sourceCode : string) : M unit :=
  st <- forEach opt_step ("", "") (split_crlf sourceCode) ;;
  writeFileSync "./optimized-output.js" (fst st).

(** ** The JavaScript fragment of the generated programs *)

Inductive instr :=
| Declare                       (** [let string = ""] *)
| AppendLiteral (s : string)    (** [string += '...'] *)
| PrintCurrent                  (** [console.log(string)] *)
| PrintLiteral (s : string).    (** [console.log('...')] *)

(** The source lines of a program text: split on ["\n"], empty lines
    dropped (they contain no statement). *)
Fixpoint split_lf (s : string) : list string :=
  match s with
  | EmptyString => [EmptyString]
  | String c s' =>
      if Ascii.eqb c LF then EmptyString :: split_lf s'
      else cons_head c (split_lf s')
  end.

Fixpoint strip_prefix (p s : string) : option string :=
  match p, s with
  | EmptyString, _ => Some s
  | String c p', String d s' => if Ascii.eqb c d then strip_prefix p' s' else None
  | String _ _, EmptyString => None
  end.

(** Escapes starting a numeric escape ([\0]-[\9], [\x..], [\u....]) are
    not modelled. *)
Definition numeric_escape (e : ascii) : bool :=
  let n := nat_of_ascii e in
  ((48 <=? n)%nat && (n <=? 57)%nat) || Ascii.eqb e "x"%char || Ascii.eqb e "u"%char.

(** The value of the single-character escape [\e]; any other character
    than [n t r b f v] stands for itself (quotes, backslash, letters, ...). *)
Definition single_escape (e : ascii) : ascii :=
  if Ascii.eqb e "n"%char then LF
  else if Ascii.eqb e "t"%char then "009"%char
  else if Ascii.eqb e "r"%char then CR
  else if Ascii.eqb e "b"%char then "008"%char
  else if Ascii.eqb e "f"%char then "012"%char
  else if Ascii.eqb e "v"%char then "011"%char
  else e.

(** Decoding of a single-quoted string literal, starting after the opening
    quote: the value and the text after the closing quote.  [None] when the
    literal is not closed on its line, contains a line terminator, or uses
    an escape the model does not cover. *)
Fixpoint decode_sq (s : string) : option (string * string) :=
  match s with
  | EmptyString => None
  | String c r =>
      if Ascii.eqb c squote then Some (EmptyString, r)
      else if Ascii.eqb c LF || Ascii.eqb c CR then None
      else if Ascii.eqb c backslash then
        match r with
        | EmptyString => None
        | String e r' =>
            if Ascii.eqb e LF || Ascii.eqb e CR || numeric_escape e then None
            else match decode_sq r' with
                 | Some (v, rest) => Some (String (single_escape e) v, rest)
                 | None => None
                 end
        end
      else match decode_sq r with
           | Some (v, rest) => Some (String c v, rest)
           | None => None
           end
  end.

Definition parse_line (l : string) : option instr :=
  if String.eqb (l ++ nl) prelude then Some Declare
  else match strip_prefix "console.log(" l with
  | Some r =>
      if String.eqb r "string)" then Some PrintCurrent
      else match r with
           | String c r' =>
               if Ascii.eqb c squote then
                 match decode_sq r' with
                 | Some (v, rest) => if String.eqb rest ")" then Some (PrintLiteral v) else None
                 | None => None
                 end
               else None
           | EmptyString => None
           end
  | None =>
      match strip_prefix "string += '" l with
      | Some r =>
          match decode_sq r with
          | Some (v, EmptyString) => Some (AppendLiteral v)
          | _ => None
          end
      | None => None
      end
  end.

Fixpoint parse_lines (ls : list string) : option (list instr) :=
  match ls with
  | [] => Some []
  | EmptyString :: ls' => parse_lines ls'
  | l :: ls' =>
      match parse_line l, parse_lines ls' with
      | Some i, Some is => Some (i :: is)
      | _, _ => None
      end
  end.

Definition parse_program (text : string) : option (list instr) :=
  parse_lines (split_lf text).

Definition is_declare (i : instr) : bool :=
  match i with Declare => true | _ => false end.

(** Execution; [env] is the binding of [string] ([None] before
    [let string], where reading it is a [ReferenceError]). *)
Fixpoint exec (env : option string) (is : list instr) : M unit :=
  match is with
  | [] => ret tt
  | Declare :: is' => exec (Some EmptyString) is'
  | AppendLiteral v :: is' =>
      match env with
      | Some s => exec (Some (s ++ v)) is'
      | None => throw ReferenceError
      end
  | PrintCurrent :: is' =>
      match env with
      | Some s => console_log s ;;; exec env is'
      | None => throw ReferenceError
      end
  | PrintLiteral v :: is' => console_log v ;;; exec env is'
  end.

(** Running a program text ([eval(program)], or [node file]): a second
    [let string] is an early error, raised before anything runs. *)
Definition eval_program (text : string) : M unit :=
  match parse_program text with
  | None => throw Unsupported
  | Some is =>
      if (2 <=? length (filter is_declare is))%nat then throw SyntaxError
      else exec None is
  end.

(** ** The JIT (src/jit.js, first script) *)

Definition jit_main (sourceCode : string) : M unit :=
  program <- forEach compile_step prelude (split_crlf sourceCode) ;;
  eval_program program.

(** Running a persisted program: [node path]. *)
Definition node_run (path : string) : M unit :=
  fun w => match files w path with
           | Some text => eval_program text w
           | None => (w, Throw (Error "ENOENT"))
           end.

(** ** Observations *)

Definition empty_world : world := mkWorld [] (fun _ => None).

(** What a run prints, from an empty terminal, and how it ends. *)
Definition outputs_of (m : M unit) : list string * result unit :=
  let '(w, r) := m empty_world in (stdout w, r).

Definition valid (lines : list string) : Prop :=
  Forall (fun l => classify l <> Invalid) lines.

Definition is_print (l : string) : bool :=
  match classify l with Print => true | _ => false end.

Definition count_prints (lines : list string) : nat :=
  length (filter is_print lines).

(** The list of strings printed so far is a chain under the prefix order. *)
Definition is_prefix (a b : string) : Prop := exists s, b = a ++ s.

(** ** Loops that leave the world alone *)

Fixpoint fold_result {S} (f : S -> string -> result S) (s : S) (ls : list string)
  : result S :=
  match ls with
  | [] => Ok s
  | l :: ls' => match f s l with
                | Ok s' => fold_result f s' ls'
                | Throw e => Throw e
                end
  end.

(** The outcome of a step that does not touch the world. *)
Definition pure_part {S} (step : S -> string -> M S) (s : S) (l : string) : result S :=
  snd (step s l empty_world).

(** ** Generic lemmas *)

Lemma str_app_nil_r : forall s, s ++ EmptyString = s.
Proof. induction s as [|c s IH]; simpl; [reflexivity | rewrite IH; reflexivity]. Qed.

Lemma str_app_assoc : forall a b c, a ++ (b ++ c) = (a ++ b) ++ c.
Proof. induction a as [|x a IH]; intros b c; simpl; [reflexivity | rewrite IH; reflexivity]. Qed.

Section PureLoop.
Context {S : Type} (step : S -> string -> M S).
Hypothesis step_pure : forall s l w, step s l w = (w, pure_part step s l).

Lemma forEach_pure : forall ls s w,
  forEach step s ls w = (w, fold_result (pure_part step) s ls).
Proof.
  induction ls as [|l ls IH]; intros s w; simpl; [reflexivity|].
  unfold bind; rewrite step_pure.
  destruct (pure_part step s l); [apply IH | reflexivity].
Qed.

Lemma fold_result_invalid : forall ls s,
  (forall s l, classify l = Invalid -> pure_part step s l = Throw invalid_line_error) ->
  (forall s l e, pure_part step s l = Throw e -> e = invalid_line_error) ->
  (exists l, In l ls /\ classify l = Invalid) ->
  fold_result (pure_part step) s ls = Throw invalid_line_error.
Proof.
  intros ls s Hinv Hthrow [l [Hin Hl]].
  revert s; induction ls as [|l' ls IH]; intro s; [destruct Hin|].
  simpl. destruct Hin as [->|Hin].
  - rewrite (Hinv s l Hl); reflexivity.
  - destruct (pure_part step s l') eqn:E; [apply IH, Hin|].
    apply Hthrow in E; subst; reflexivity.
Qed.
End PureLoop.

Ltac by_classify l := destruct (classify l); reflexivity.

Lemma compile_step_pure : forall p l w,
  compile_step p l w = (w, pure_part compile_step p l).
Proof. intros p l w; unfold pure_part, compile_step; by_classify l. Qed.

Lemma opt_step_pure : forall st l w,
  opt_step st l w = (w, pure_part opt_step st l).
Proof. intros [p s] l w; unfold pure_part, opt_step; by_classify l. Qed.

Lemma compile_step_invalid : forall p l,
  classify l = Invalid -> pure_part compile_step p l = Throw invalid_line_error.
Proof. intros p l H; unfold pure_part, compile_step; rewrite H; reflexivity. Qed.

Lemma opt_step_invalid : forall st l,
  classify l = Invalid -> pure_part opt_step st l = Throw invalid_line_error.
Proof. intros [p s] l H; unfold pure_part, opt_step; rewrite H; reflexivity. Qed.

Lemma compile_step_throw : forall p l e,
  pure_part compile_step p l = Throw e -> e = invalid_line_error.
Proof.
  intros p l e; unfold pure_part, compile_step; destruct (classify l); simpl;
    congruence.
Qed.

Lemma opt_step_throw : forall st l e,
  pure_part opt_step st l = Throw e -> e = invalid_line_error.
Proof.
  intros [p s] l e; unfold pure_part, opt_step; destruct (classify l); simpl;
    congruence.
Qed.

Lemma compile_step_extends : forall p l q,
  pure_part compile_step p l = Ok q -> exists rest, q = p ++ rest.
Proof.
  intros p l q; unfold pure_part, compile_step; destruct (classify l); simpl;
    intro H; injection H as <- || discriminate H;
    (eexists; reflexivity) || (exists EmptyString; symmetry; apply str_app_nil_r).
Qed.

Lemma compile_fold_extends : forall ls p q,
  fold_result (pure_part compile_step) p ls = Ok q -> exists rest, q = p ++ rest.
Proof.
  induction ls as [|l ls IH]; intros p q H; simpl in H.
  - injection H as <-; exists EmptyString; symmetry; apply str_app_nil_r.
  - destruct (pure_part compile_step p l) as [p'|e] eqn:E; [|discriminate].
    apply compile_step_extends in E as [r1 ->].
    apply IH in H as [r2 ->].
    exists (r1 ++ r2); symmetry; apply str_app_assoc.
Qed.

Lemma compiler_main_run : forall src w,
  compiler_main src w =
    match fold_result (pure_part compile_step) prelude (split_crlf src) with
    | Ok p => (mkWorld (stdout w) (update_file (files w) "./output.js" p), Ok tt)
    | Throw e => (w, Throw e)
    end.
Proof.
  intros src w; unfold compiler_main, bind.
  rewrite (forEach_pure compile_step compile_step_pure).
  destruct (fold_result _ _ _); reflexivity.
Qed.

Lemma optimizer_main_run : forall src w,
  optimizer_main src w =
    match fold_result (pure_part opt_step) ("", "") (split_crlf src) with
    | Ok st => (mkWorld (stdout w)
                  (update_file (files w) "./optimized-output.js" (fst st)), Ok tt)
    | Throw e => (w, Throw e)
    end.
Proof.
  intros src w; unfold optimizer_main, bind.
  rewrite (forEach_pure opt_step opt_step_pure).
  destruct (fold_result _ _ _); reflexivity.
Qed.

Lemma jit_main_run : forall src w,
  jit_main src w =
    match fold_result (pure_part compile_step) prelude (split_crlf src) with
    | Ok p => eval_program p w
    | Throw e => (w, Throw e)
    end.
Proof.
  intros src w; unfold jit_main, bind.
  rewrite (forEach_pure compile_step compile_step_pure).
  destruct (fold_result _ _ _); reflexivity.
Qed.

(** ** C6: classification by the first character *)

(** C6: a line is classified by its first character alone: [#] gives a
    Comment, [p] a Print, [t] an Invalid line, any other first character an
    Emit whose payload is the whole line; the empty line is an Emit of the
    empty payload. *)
Theorem classify_by_first_char :
  classify EmptyString = Emit EmptyString /\
  (forall r, classify (String "#" r) = Comment) /\
  (forall r, classify (String "p" r) = Print) /\
  (forall r, classify (String "t" r) = Invalid) /\
  (forall c r, c <> "#"%char -> c <> "p"%char -> c <> "t"%char ->
     classify (String c r) = Emit (String c r)) /\
  (forall c r1 r2, classify (String c r1) = Emit (String c r1) <->
                   classify (String c r2) = Emit (String c r2)).
Proof.
  assert (Hemit : forall c r, c <> "#"%char -> c <> "p"%char -> c <> "t"%char ->
            classify (String c r) = Emit (String c r)).
  { intros c r H1 H2 H3; unfold classify; simpl.
    destruct (Ascii.eqb_spec c "p"%char); [contradiction|].
    destruct (Ascii.eqb_spec c "t"%char); [contradiction|].
    destruct (Ascii.eqb_spec c "#"%char); [contradiction|reflexivity]. }
  split; [reflexivity|].
  split; [reflexivity|].
  split; [reflexivity|].
  split; [reflexivity|].
  split; [exact Hemit|].
  intros c r1 r2.
  destruct (Ascii.eqb_spec c "p"%char) as [->|Hp]; [split; discriminate|].
  destruct (Ascii.eqb_spec c "t"%char) as [->|Ht]; [split; discriminate|].
  destruct (Ascii.eqb_spec c "#"%char) as [->|Hh]; [split; discriminate|].
  rewrite !Hemit by assumption; split; reflexivity.
Qed.

(** ** C3: the compiling strategies are all-or-nothing *)

(** C3: when a line of the source is Invalid, the AOT compiler, the
    optimizing compiler and the JIT each throw the invalid-line error and
    return the world untouched: nothing printed, no file written. *)
Theorem compiling_strategies_all_or_nothing : forall src w,
  (exists l, In l (split_crlf src) /\ classify l = Invalid) ->
  compiler_main src w = (w, Throw invalid_line_error) /\
  optimizer_main src w = (w, Throw invalid_line_error) /\
  jit_main src w = (w, Throw invalid_line_error).
Proof.
  intros src w Hinv.
  rewrite compiler_main_run, optimizer_main_run, jit_main_run.
  rewrite (fold_result_invalid compile_step (split_crlf src) prelude
             compile_step_invalid compile_step_throw Hinv).
  rewrite (fold_result_invalid opt_step (split_crlf src) ("", "")
             opt_step_invalid opt_step_throw Hinv).
  repeat split.
Qed.

Definition src_invalid : string := "abc" ++ crlf ++ "this-is-invalid".

Lemma compiling_strategies_all_or_nothing_witness :
  (exists l, In l (split_crlf src_invalid) /\ classify l = Invalid) /\
  (compiler_main src_invalid empty_world = (empty_world, Throw invalid_line_error) /\
   optimizer_main src_invalid empty_world = (empty_world, Throw invalid_line_error) /\
   jit_main src_invalid empty_world = (empty_world, Throw invalid_line_error)).
Proof.
  assert (H : exists l, In l (split_crlf src_invalid) /\ classify l = Invalid).
  { exists "this-is-invalid"; split; [simpl; auto | reflexivity]. }
  split; [exact H|].
  apply (compiling_strategies_all_or_nothing src_invalid empty_world H).
Defined.

(** ** C8: the AOT compiler is deterministic *)

(** C8: two successful runs of the AOT compiler on the same source, from
    any two worlds, leave the same text in [./output.js]. *)
Theorem compiler_deterministic : forall src w1 w2 w1' w2',
  compiler_main src w1 = (w1', Ok tt) ->
  compiler_main src w2 = (w2', Ok tt) ->
  files w1' "./output.js" = files w2' "./output.js" /\
  exists text, files w1' "./output.js" = Some text.
Proof.
  intros src w1 w2 w1' w2' H1 H2.
  rewrite compiler_main_run in H1, H2.
  destruct (fold_result _ _ _) as [p|e]; [|discriminate].
  injection H1 as <-; injection H2 as <-; simpl.
  unfold update_file; simpl.
  split; [reflexivity | exists p; reflexivity].
Qed.

Definition src_hello : string :=
  "hello" ++ crlf ++ "print" ++ crlf ++ " world" ++ crlf ++ "print".

(** A world where [./output.js] already holds an older program. *)
Definition world_stale : world :=
  mkWorld ["old"] (fun p => if String.eqb p "./output.js" then Some "stale" else None).

Lemma compiler_deterministic_witness :
  (compiler_main src_hello empty_world =
     (fst (compiler_main src_hello empty_world), Ok tt) /\
   compiler_main src_hello world_stale =
     (fst (compiler_main src_hello world_stale), Ok tt)) /\
  (files (fst (compiler_main src_hello empty_world)) "./output.js" =
     files (fst (compiler_main src_hello world_stale)) "./output.js" /\
   exists text, files (fst (compiler_main src_hello empty_world)) "./output.js" = Some text).
Proof.
  assert (H1 : compiler_main src_hello empty_world =
                 (fst (compiler_main src_hello empty_world), Ok tt)) by reflexivity.
  assert (H2 : compiler_main src_hello world_stale =
                 (fst (compiler_main src_hello world_stale), Ok tt)) by reflexivity.
  split; [split; assumption|].
  exact (compiler_deterministic src_hello empty_world world_stale _ _ H1 H2).
Defined.

(** ** C10: the AOT compiler's output starts with the declaration *)

Definition empty_program : string := prelude ++ "string += ''" ++ nl.

(** C10: every program the AOT compiler persists starts with
    [let string = ""] (a failed compilation leaves the world as it was);
    the empty source splits into one empty line, an Emit of the empty
    payload, so compiling it succeeds, and running the persisted program
    prints nothing. *)
Theorem compiler_output_prelude :
  (forall src w,
     match compiler_main src w with
     | (w', Ok _) => exists rest, files w' "./output.js" = Some (prelude ++ rest)
     | (w', Throw _) => w' = w
     end) /\
  split_crlf EmptyString = [EmptyString] /\
  classify EmptyString = Emit EmptyString /\
  (forall w,
     compiler_main EmptyString w =
       (mkWorld (stdout w) (update_file (files w) "./output.js" empty_program), Ok tt) /\
     (compiler_main EmptyString ;;; node_run "./output.js") w =
       (mkWorld (stdout w) (update_file (files w) "./output.js" empty_program), Ok tt)).
Proof.
  split.
  - intros src w; rewrite compiler_main_run.
    destruct (fold_result _ _ _) as [p|e] eqn:E; [|reflexivity].
    apply compile_fold_extends in E as [rest ->].
    exists rest; unfold update_file; reflexivity.
  - split; [reflexivity|].
    split; [reflexivity|].
    intro w; split; reflexivity.
Qed.

(** ** Running the interpreter *)

Lemma forEach_app {S} (step : S -> string -> M S) : forall l1 l2 s w,
  forEach step s (l1 ++ l2)%list w =
    match forEach step s l1 w with
    | (w1, Ok s1) => forEach step s1 l2 w1
    | (w1, Throw e) => (w1, Throw e)
    end.
Proof.
  induction l1 as [|l l1 IH]; intros l2 s w; simpl; [reflexivity|].
  unfold bind; destruct (step s l w) as [w1 [s1|e]]; [apply IH | reflexivity].
Qed.

Lemma interp_chain : forall ls st w,
  exists outs,
    stdout (fst (forEach interp_step st ls w)) = (stdout w ++ outs)%list /\
    Forall (is_prefix st) outs /\ ForallOrdPairs is_prefix outs.
Proof.
  induction ls as [|l ls IH]; intros st w; simpl.
  - exists []; split; [symmetry; apply app_nil_r | split; constructor].
  - unfold bind; unfold interp_step at 1; destruct (classify l) as [| | |p]; simpl.
    + destruct (IH st (mkWorld (stdout w ++ [st])%list (files w)))
        as [outs [Hout [Hpre Hchain]]].
      exists (st :: outs); simpl in Hout; rewrite Hout, <- app_assoc.
      split; [reflexivity|].
      split; [constructor; [exists EmptyString; symmetry; apply str_app_nil_r | exact Hpre]|].
      constructor; assumption.
    + exists []; split; [symmetry; apply app_nil_r | split; constructor].
    + apply IH.
    + destruct (IH (st ++ p) w) as [outs [Hout [Hpre Hchain]]].
      exists outs; split; [exact Hout|]; split; [|exact Hchain].
      eapply Forall_impl; [|exact Hpre].
      intros a [s ->]; exists (p ++ s); symmetry; apply str_app_assoc.
Qed.

Lemma interp_valid_run : forall ls st w,
  valid ls ->
  exists outs st',
    forEach interp_step st ls w = (mkWorld (stdout w ++ outs)%list (files w), Ok st') /\
    length outs = count_prints ls.
Proof.
  induction ls as [|l ls IH]; intros st w Hv; simpl.
  - exists [], st; rewrite app_nil_r; destruct w; split; reflexivity.
  - inversion Hv as [|? ? Hl Hls]; subst.
    unfold bind, count_prints, is_print; unfold interp_step at 1; simpl.
    destruct (classify l) as [| | |p] eqn:Ec; simpl; [| contradiction | |].
    + destruct (IH st (mkWorld (stdout w ++ [st])%list (files w)) Hls)
        as [outs [st' [Hrun Hlen]]].
      exists (st :: outs), st'; rewrite Hrun; simpl; rewrite <- app_assoc.
      split; [reflexivity | simpl; f_equal; exact Hlen].
    + exact (IH st w Hls).
    + exact (IH (st ++ p) w Hls).
Qed.

(** ** C9: the interpreter's outputs grow by appending *)

(** C9: whatever the source, the strings the interpreter prints form a
    chain under the prefix order: each printed string is a prefix of every
    string printed after it. *)
Theorem interpreter_outputs_prefix_chain : forall src w,
  exists outs,
    stdout (fst (interpreter_main src w)) = (stdout w ++ outs)%list /\
    ForallOrdPairs is_prefix outs.
Proof.
  intros src w.
  destruct (interp_chain (split_crlf src) "" w) as [outs [Hout [_ Hchain]]].
  exists outs; split; [|exact Hchain].
  unfold interpreter_main, bind.
  destruct (forEach interp_step "" (split_crlf src) w) as [w1 [s1|e]] eqn:E;
    simpl in *; exact Hout.
Qed.

(** ** C2: the interpreter's partial progress *)

(** C2 (as the code has it): when the first Invalid line of the source is
    [t], preceded by the valid lines [pre], the interpreter prints exactly
    what running [pre] alone prints (one string per Print of [pre]), then
    throws the fixed error [ERROR I AM AN INVALID LINE], which records no
    line number; nothing is printed after it and no file is touched. *)
Theorem interpreter_partial_progress : forall src pre t rest w,
  split_crlf src = (pre ++ t :: rest)%list ->
  valid pre ->
  classify t = Invalid ->
  exists outs st,
    forEach interp_step "" pre w = (mkWorld (stdout w ++ outs)%list (files w), Ok st) /\
    interpreter_main src w =
      (mkWorld (stdout w ++ outs)%list (files w), Throw invalid_line_error) /\
    length outs = count_prints pre.
Proof.
  intros src pre t rest w Hsplit Hv Ht.
  destruct (interp_valid_run pre "" w Hv) as [outs [st [Hrun Hlen]]].
  exists outs, st; split; [exact Hrun|]; split; [|exact Hlen].
  unfold interpreter_main, bind; rewrite Hsplit, forEach_app, Hrun; simpl.
  unfold bind, interp_step; rewrite Ht; reflexivity.
Qed.

Definition src_invalid_after_print : string :=
  "abc" ++ crlf ++ "print" ++ crlf ++ "this-is-invalid" ++ crlf ++ "print".

Lemma interpreter_partial_progress_witness :
  (split_crlf src_invalid_after_print =
     (["abc"; "print"] ++ "this-is-invalid" :: ["print"])%list /\
   valid ["abc"; "print"] /\ classify "this-is-invalid" = Invalid) /\
  exists outs st,
    forEach interp_step "" ["abc"; "print"] empty_world =
      (mkWorld (stdout empty_world ++ outs)%list (files empty_world), Ok st) /\
    interpreter_main src_invalid_after_print empty_world =
      (mkWorld (stdout empty_world ++ outs)%list (files empty_world),
       Throw invalid_line_error) /\
    length outs = count_prints ["abc"; "print"].
Proof.
  assert (Hs : split_crlf src_invalid_after_print =
                 (["abc"; "print"] ++ "this-is-invalid" :: ["print"])%list)
    by reflexivity.
  assert (Hv : valid ["abc"; "print"])
    by (constructor; [discriminate | constructor; [discriminate | constructor]]).
  assert (Ht : classify "this-is-invalid" = Invalid) by reflexivity.
  split; [split; [exact Hs | split; assumption]|].
  exact (interpreter_partial_progress src_invalid_after_print ["abc"; "print"]
           "this-is-invalid" ["print"] empty_world Hs Hv Ht).
Defined.

(** C2, as stated with the line number: no reading of the thrown error
    gives back the line of the first Invalid statement, since the sources
    ["t"] (line 1) and ["a", "t"] (line 2) throw the same error. *)
Lemma interpreter_error_carries_no_line :
  ~ exists line_of : js_error -> nat,
      forall src pre t rest w w' e,
        split_crlf src = (pre ++ t :: rest)%list -> valid pre ->
        classify t = Invalid ->
        interpreter_main src w = (w', Throw e) ->
        line_of e = S (length pre).
Proof.
  intros [line_of H].
  assert (H1 : line_of invalid_line_error = 1).
  { apply (H "t" [] "t" [] empty_world empty_world); try reflexivity; constructor. }
  assert (H2 : line_of invalid_line_error = 2).
  { apply (H ("a" ++ crlf ++ "t") ["a"] "t" [] empty_world
             (mkWorld [] (fun _ => None))); try reflexivity.
    constructor; [discriminate | constructor]. }
  rewrite H1 in H2; discriminate.
Qed.

(** ** The optimizing compiler's loop *)

Lemma opt_fold_extends : forall ls p str w w' st',
  forEach opt_step (p, str) ls w = (w', Ok st') ->
  w' = w /\ exists suffix, fst st' = p ++ suffix.
Proof.
  induction ls as [|l ls IH]; intros p str w w' st' H; simpl in H.
  - injection H as <- <-; split; [reflexivity|]; exists EmptyString; symmetry; apply str_app_nil_r.
  - unfold bind in H; unfold opt_step at 1 in H.
    destruct (classify l) as [| | |q]; simpl in H; try discriminate.
    + apply IH in H as [-> [s ->]]; split; [reflexivity|].
      eexists; rewrite <- !str_app_assoc; reflexivity.
    + exact (IH _ _ _ _ _ H).
    + exact (IH _ _ _ _ _ H).
Qed.

Lemma opt_fold_no_print : forall ls p str w,
  valid ls -> Forall (fun l => classify l <> Print) ls ->
  exists str', forEach opt_step (p, str) ls w = (w, Ok (p, str')).
Proof.
  induction ls as [|l ls IH]; intros p str w Hv Hp; simpl.
  - exists str; reflexivity.
  - inversion Hv as [|? ? Hvl Hvls]; inversion Hp as [|? ? Hpl Hpls]; subst.
    unfold bind; unfold opt_step at 1.
    destruct (classify l) as [| | |q]; [contradiction | contradiction | |]; simpl;
      apply IH; assumption.
Qed.

(** ** C7: printed literals are snapshots *)

(** C7: the optimizing compiler only ever appends to the program text it
    has built: a later step never changes an instruction already emitted,
    and steps that are not Prints (the Emits folding into [string]) leave
    the text exactly as it was. *)
Theorem optimizer_print_snapshots : forall p str ls w w' st',
  forEach opt_step (p, str) ls w = (w', Ok st') ->
  (exists suffix, fst st' = p ++ suffix) /\
  (Forall (fun l => classify l <> Print) ls -> fst st' = p).
Proof.
  intros p str ls w w' st' H.
  split; [exact (proj2 (opt_fold_extends ls p str w w' st' H))|].
  intro Hp.
  assert (Hv : valid ls).
  { clear Hp; revert p str w w' st' H; induction ls as [|l ls IH];
      intros p str w w' st' H; constructor; simpl in H; unfold bind in H;
      unfold opt_step at 1 in H; destruct (classify l) as [| | |q] eqn:E;
      simpl in H; try discriminate; try (eapply IH; exact H). }
  destruct (opt_fold_no_print ls p str w Hv Hp) as [str' Hrun].
  rewrite Hrun in H; injection H as _ <-; reflexivity.
Qed.

Definition printed_abc : string := "console.log('abc')" ++ nl.

Lemma optimizer_print_snapshots_witness :
  forEach opt_step (printed_abc, "abc") ["def"; "# note"] empty_world =
    (empty_world, Ok (printed_abc, "abcdef")) /\
  ((exists suffix, printed_abc = printed_abc ++ suffix) /\
   (Forall (fun l => classify l <> Print) ["def"; "# note"] -> printed_abc = printed_abc)).
Proof.
  assert (H : forEach opt_step (printed_abc, "abc") ["def"; "# note"] empty_world =
                (empty_world, Ok (printed_abc, "abcdef"))) by reflexivity.
  split; [exact H|].
  exact (optimizer_print_snapshots printed_abc "abc" ["def"; "# note"]
           empty_world empty_world (printed_abc, "abcdef") H).
Defined.

(** ** C5: Emits after the last Print are dead code *)

Definition src_trailing : string := "abc" ++ crlf ++ "print" ++ crlf ++ "def".

(** C5: Emits (and comments) after the last Print fold into [string] but
    never reach the program text: the text built from [pre ++ post] is the
    text built from [pre].  On the lines [abc], [print], [def] the persisted
    program is the single statement [console.log('abc')]. *)
Theorem optimizer_drops_trailing_emits :
  (forall pre post st w w1 st1,
     forEach opt_step st pre w = (w1, Ok st1) ->
     valid post -> Forall (fun l => classify l <> Print) post ->
     exists str', forEach opt_step st (pre ++ post)%list w = (w1, Ok (fst st1, str'))) /\
  (forall w, optimizer_main src_trailing w =
     (mkWorld (stdout w) (update_file (files w) "./optimized-output.js" printed_abc), Ok tt)) /\
  parse_program printed_abc = Some [PrintLiteral "abc"].
Proof.
  split; [|split; [intro w; reflexivity | reflexivity]].
  intros pre post st w w1 [p1 s1] Hpre Hv Hp.
  rewrite forEach_app, Hpre.
  pose proof (opt_fold_extends pre (fst st) (snd st) w w1 (p1, s1)) as Hw.
  destruct st as [p0 s0]; destruct (Hw Hpre) as [-> _].
  exact (opt_fold_no_print post p1 s1 w Hv Hp).
Qed.

Lemma optimizer_drops_trailing_emits_witness :
  (forEach opt_step ("", "") ["abc"; "print"] empty_world =
     (empty_world, Ok (printed_abc, "abc")) /\
   valid ["def"; "# done"] /\ Forall (fun l => classify l <> Print) ["def"; "# done"]) /\
  exists str', forEach opt_step ("", "") (["abc"; "print"] ++ ["def"; "# done"])%list
                 empty_world = (empty_world, Ok (printed_abc, str')).
Proof.
  assert (H1 : forEach opt_step ("", "") ["abc"; "print"] empty_world =
                 (empty_world, Ok (printed_abc, "abc"))) by reflexivity.
  assert (H2 : valid ["def"; "# done"])
    by (constructor; [discriminate | constructor; [discriminate | constructor]]).
  assert (H3 : Forall (fun l => classify l <> Print) ["def"; "# done"])
    by (constructor; [discriminate | constructor; [discriminate | constructor]]).
  split; [split; [exact H1 | split; assumption]|].
  exact (proj1 optimizer_drops_trailing_emits ["abc"; "print"] ["def"; "# done"]
           ("", "") empty_world empty_world (printed_abc, "abc") H1 H2 H3).
Defined.

(** ** C1: the four strategies on a payload with a backslash *)

(** A Windows path: the line [C:\new], then [print]. *)
Definition src_backslash : string := "C:\new" ++ crlf ++ "print".

(** What the generated programs print for it: the literal ['C:\new'] of
    the generated code reads [\n] as a line feed. *)
Definition C_newline_ew : string := "C:" ++ nl ++ "ew".

(** C1 at [src_backslash]: on this valid source the interpreter prints the
    line as it is, while the program generated by the AOT compiler, the one
    generated by the optimizing compiler and the JIT all print a different
    string: the payload is pasted between quotes without escaping. *)
Theorem cross_strategy_backslash :
  valid (split_crlf src_backslash) /\
  outputs_of (interpreter_main src_backslash) = (["C:\new"], Ok tt) /\
  outputs_of (compiler_main src_backslash ;;; node_run "./output.js") =
    ([C_newline_ew], Ok tt) /\
  outputs_of (optimizer_main src_backslash ;;; node_run "./optimized-output.js") =
    ([C_newline_ew], Ok tt) /\
  outputs_of (jit_main src_backslash) = ([C_newline_ew], Ok tt) /\
  "C:\new" <> C_newline_ew.
Proof.
  split; [constructor; [discriminate | constructor; [discriminate | constructor]]|].
  split; [reflexivity|].
  split; [reflexivity|].
  split; [reflexivity|].
  split; [reflexivity|].
  discriminate.
Qed.

(** ** C4: the optimized program on a payload that closes its literal *)

(** One Emit line holding a bare line feed (the source is split on
    ["\r\n"] only), then one Print. *)
Definition src_injected : string :=
  "x')" ++ nl ++ "console.log('y" ++ crlf ++ "print".

Definition injected_text : string :=
  "console.log('x')" ++ nl ++ "console.log('y')" ++ nl.

(** C4 at [src_injected]: the source is valid and has one Print, yet the
    persisted optimized program is two [console.log] statements, printing
    [x] and [y]. *)
Theorem optimizer_injected_payload :
  valid (split_crlf src_injected) /\
  count_prints (split_crlf src_injected) = 1 /\
  (forall w, optimizer_main src_injected w =
     (mkWorld (stdout w) (update_file (files w) "./optimized-output.js" injected_text),
      Ok tt)) /\
  parse_program injected_text = Some [PrintLiteral "x"; PrintLiteral "y"] /\
  outputs_of (optimizer_main src_injected ;;; node_run "./optimized-output.js") =
    (["x"; "y"], Ok tt) /\
  outputs_of (interpreter_main src_injected) =
    (["x')" ++ nl ++ "console.log('y"], Ok tt).
Proof.
  split; [constructor; [discriminate | constructor; [discriminate | constructor]]|].
  split; [reflexivity|].
  split; [intro w; reflexivity|].
  split; [reflexivity|].
  split; reflexivity.
Qed.

(** ** Payloads that survive being pasted between quotes *)

(** A character the generated literals [' ... '] read back as itself. *)
Definition safe_char (c : ascii) : bool :=
  negb (Ascii.eqb c squote || Ascii.eqb c backslash || Ascii.eqb c LF || Ascii.eqb c CR).

Fixpoint safe_text (s : string) : bool :=
  match s with
  | EmptyString => true
  | String c s' => safe_char c && safe_text s'
  end.

Definition safe_payload (l : string) : bool :=
  match classify l with
  | Emit x => safe_text x
  | _ => true
  end.

Fixpoint no_lf (s : string) : bool :=
  match s with
  | EmptyString => true
  | String c s' => negb (Ascii.eqb c LF) && no_lf s'
  end.

(** The strings printed by the interpreter from state [st] on valid lines. *)
Fixpoint print_outputs (st : string) (ls : list string) : list string :=
  match ls with
  | [] => []
  | l :: ls' =>
      match classify l with
      | Print => st :: print_outputs st ls'
      | Invalid => []
      | Comment => print_outputs st ls'
      | Emit x => print_outputs (st ++ x) ls'
      end
  end.

(** The text the AOT compiler appends for the lines [ls]. *)
Fixpoint compiled_chunks (ls : list string) : string :=
  match ls with
  | [] => EmptyString
  | l :: ls' =>
      match classify l with
      | Print => "console.log(string)" ++ nl
      | Invalid => EmptyString
      | Comment => EmptyString
      | Emit x => "string += '" ++ x ++ "'" ++ nl
      end ++ compiled_chunks ls'
  end.

Fixpoint compiled_instrs (ls : list string) : list instr :=
  match ls with
  | [] => []
  | l :: ls' =>
      match classify l with
      | Print => PrintCurrent :: compiled_instrs ls'
      | Invalid => []
      | Comment => compiled_instrs ls'
      | Emit x => AppendLiteral x :: compiled_instrs ls'
      end
  end.

(** The text the optimizing compiler appends for [ls] from state [str]. *)
Fixpoint optimized_chunks (str : string) (ls : list string) : string :=
  match ls with
  | [] => EmptyString
  | l :: ls' =>
      match classify l with
      | Print => "console.log('" ++ str ++ "')" ++ nl ++ optimized_chunks str ls'
      | Invalid => EmptyString
      | Comment => optimized_chunks str ls'
      | Emit x => optimized_chunks (str ++ x) ls'
      end
  end.

Lemma safe_text_app : forall a b,
  safe_text (a ++ b) = safe_text a && safe_text b.
Proof.
  induction a as [|c a IH]; intro b; simpl; [reflexivity|].
  rewrite IH, andb_assoc; reflexivity.
Qed.

Lemma safe_no_lf : forall s, safe_text s = true -> no_lf s = true.
Proof.
  induction s as [|c s IH]; simpl; [reflexivity|].
  unfold safe_char; intro H; apply andb_prop in H as [Hc Hs].
  rewrite IH by exact Hs.
  destruct (Ascii.eqb c LF); [|reflexivity].
  rewrite !orb_true_r in Hc; discriminate.
Qed.

Lemma no_lf_app : forall a b, no_lf (a ++ b) = no_lf a && no_lf b.
Proof.
  induction a as [|c a IH]; intro b; simpl; [reflexivity|].
  rewrite IH, andb_assoc; reflexivity.
Qed.

Lemma split_lf_line : forall a b,
  no_lf a = true -> split_lf (a ++ String LF b) = a :: split_lf b.
Proof.
  induction a as [|c a IH]; intros b H; simpl; [reflexivity|].
  simpl in H; apply andb_prop in H as [Hc Ha].
  destruct (Ascii.eqb c LF); [discriminate|].
  rewrite (IH b Ha); reflexivity.
Qed.

Lemma strip_prefix_app : forall p s, strip_prefix p (p ++ s) = Some s.
Proof.
  induction p as [|c p IH]; intro s; simpl; [reflexivity|].
  rewrite Ascii.eqb_refl; apply IH.
Qed.

Lemma decode_safe : forall v r,
  safe_text v = true -> decode_sq (v ++ String squote r) = Some (v, r).
Proof.
  induction v as [|c v IH]; intros r H; simpl; [reflexivity|].
  apply andb_prop in H as [Hc Hv]; unfold safe_char in Hc.
  destruct (Ascii.eqb c squote); [discriminate|].
  destruct (Ascii.eqb c LF); [rewrite orb_true_r in Hc; discriminate|].
  destruct (Ascii.eqb c CR); [rewrite orb_true_r in Hc; discriminate|].
  destruct (Ascii.eqb c backslash); [discriminate|].
  simpl; rewrite (IH r Hv); reflexivity.
Qed.

Fixpoint optimized_instrs (str : string) (ls : list string) : list instr :=
  match ls with
  | [] => []
  | l :: ls' =>
      match classify l with
      | Print => PrintLiteral str :: optimized_instrs str ls'
      | Invalid => []
      | Comment => optimized_instrs str ls'
      | Emit x => optimized_instrs (str ++ x) ls'
      end
  end.

Lemma pure_compile_step : forall p l,
  pure_part compile_step p l =
    match classify l with
    | Print => Ok (p ++ "console.log(string)" ++ nl)
    | Invalid => Throw invalid_line_error
    | Comment => Ok p
    | Emit x => Ok (p ++ "string += '" ++ x ++ "'" ++ nl)
    end.
Proof. intros p l; unfold pure_part, compile_step; by_classify l. Qed.

Lemma pure_opt_step : forall p str l,
  pure_part opt_step (p, str) l =
    match classify l with
    | Print => Ok (p ++ "console.log('" ++ str ++ "')" ++ nl, str)
    | Invalid => Throw invalid_line_error
    | Comment => Ok (p, str)
    | Emit x => Ok (p, str ++ x)
    end.
Proof. intros p str l; unfold pure_part, opt_step; by_classify l. Qed.

Lemma compile_fold_chunks : forall ls p,
  valid ls -> fold_result (pure_part compile_step) p ls = Ok (p ++ compiled_chunks ls).
Proof.
  induction ls as [|l ls IH]; intros p Hv; cbn [fold_result compiled_chunks].
  - rewrite str_app_nil_r; reflexivity.
  - inversion Hv as [|? ? Hl Hls]; subst.
    rewrite pure_compile_step.
    destruct (classify l) as [| | |x]; [| contradiction | |];
      rewrite IH by exact Hls; rewrite ?str_app_assoc, ?str_app_nil_r; reflexivity.
Qed.

Lemma opt_fold_chunks : forall ls p str,
  valid ls ->
  exists str', fold_result (pure_part opt_step) (p, str) ls =
                 Ok (p ++ optimized_chunks str ls, str').
Proof.
  induction ls as [|l ls IH]; intros p str Hv; cbn [fold_result optimized_chunks].
  - exists str; rewrite str_app_nil_r; reflexivity.
  - inversion Hv as [|? ? Hl Hls]; subst.
    rewrite pure_opt_step.
    destruct (classify l) as [| | |x]; [| contradiction | |].
    + destruct (IH (p ++ "console.log('" ++ str ++ "')" ++ nl) str Hls) as [s' H].
      exists s'; rewrite H, <- !str_app_assoc; reflexivity.
    + exact (IH p str Hls).
    + exact (IH p (str ++ x) Hls).
Qed.

Lemma parse_line_append : forall x,
  safe_text x = true -> parse_line ("string += '" ++ x ++ "'") = Some (AppendLiteral x).
Proof.
  intros x Hx; unfold parse_line; simpl.
  rewrite (decode_safe x EmptyString Hx : decode_sq (x ++ "'") = Some (x, EmptyString)).
  reflexivity.
Qed.

Lemma parse_line_literal : forall s,
  safe_text s = true -> parse_line ("console.log('" ++ s ++ "')") = Some (PrintLiteral s).
Proof.
  intros s Hs; unfold parse_line; simpl.
  rewrite (decode_safe s ")" Hs : decode_sq (s ++ "')") = Some (s, ")")).
  reflexivity.
Qed.

Lemma parse_lines_nonempty : forall l ls,
  l <> EmptyString ->
  parse_lines (l :: ls) =
    match parse_line l, parse_lines ls with
    | Some i, Some is => Some (i :: is)
    | _, _ => None
    end.
Proof. intros [|c s] ls H; [contradiction | reflexivity]. Qed.

Lemma parse_compiled_chunks : forall ls,
  valid ls -> Forall (fun l => safe_payload l = true) ls ->
  parse_lines (split_lf (compiled_chunks ls)) = Some (compiled_instrs ls).
Proof.
  induction ls as [|l ls IH]; intros Hv Hs; [reflexivity|].
  inversion Hv as [|? ? Hl Hls]; inversion Hs as [|? ? Hsl Hsls]; subst.
  unfold safe_payload in Hsl; cbn [compiled_chunks compiled_instrs].
  destruct (classify l) as [| | |x]; [| contradiction | |].
  - rewrite <- str_app_assoc.
    rewrite (split_lf_line "console.log(string)" (compiled_chunks ls) eq_refl
      : split_lf ("console.log(string)" ++ nl ++ compiled_chunks ls) = _).
    rewrite parse_lines_nonempty by discriminate.
    rewrite (IH Hls Hsls); reflexivity.
  - exact (IH Hls Hsls).
  - assert (Hlf : no_lf ("string += '" ++ x ++ "'") = true).
    { rewrite !no_lf_app, (safe_no_lf x Hsl); reflexivity. }
    replace (("string += '" ++ x ++ "'" ++ nl) ++ compiled_chunks ls)
      with (("string += '" ++ x ++ "'") ++ String LF (compiled_chunks ls))
      by (rewrite <- !str_app_assoc; reflexivity).
    rewrite (split_lf_line _ _ Hlf).
    rewrite parse_lines_nonempty by discriminate.
    rewrite (parse_line_append x Hsl), (IH Hls Hsls); reflexivity.
Qed.

Lemma parse_optimized_chunks : forall ls str,
  valid ls -> Forall (fun l => safe_payload l = true) ls -> safe_text str = true ->
  parse_lines (split_lf (optimized_chunks str ls)) = Some (optimized_instrs str ls).
Proof.
  induction ls as [|l ls IH]; intros str Hv Hs Hstr; [reflexivity|].
  inversion Hv as [|? ? Hl Hls]; inversion Hs as [|? ? Hsl Hsls]; subst.
  unfold safe_payload in Hsl; cbn [optimized_chunks optimized_instrs].
  destruct (classify l) as [| | |x]; [| contradiction | |].
  - assert (Hlf : no_lf ("console.log('" ++ str ++ "')") = true).
    { rewrite !no_lf_app, (safe_no_lf str Hstr); reflexivity. }
    replace ("console.log('" ++ str ++ "')" ++ nl ++ optimized_chunks str ls)
      with (("console.log('" ++ str ++ "')") ++ String LF (optimized_chunks str ls))
      by (rewrite <- !str_app_assoc; reflexivity).
    rewrite (split_lf_line _ _ Hlf).
    rewrite parse_lines_nonempty by discriminate.
    rewrite (parse_line_literal str Hstr), (IH str Hls Hsls Hstr); reflexivity.
  - exact (IH str Hls Hsls Hstr).
  - apply (IH (str ++ x) Hls Hsls).
    rewrite safe_text_app, Hstr, Hsl; reflexivity.
Qed.

Lemma parse_compiled_program : forall ls,
  valid ls -> Forall (fun l => safe_payload l = true) ls ->
  parse_program (prelude ++ compiled_chunks ls) = Some (Declare :: compiled_instrs ls).
Proof.
  intros ls Hv Hs; unfold parse_program.
  rewrite (split_lf_line ("let string = " ++ String dquote (String dquote EmptyString))
             (compiled_chunks ls) eq_refl
    : split_lf (prelude ++ compiled_chunks ls) = _).
  rewrite parse_lines_nonempty by discriminate.
  rewrite (parse_compiled_chunks ls Hv Hs); reflexivity.
Qed.

Lemma declare_free_compiled : forall ls, filter is_declare (compiled_instrs ls) = [].
Proof.
  induction ls as [|l ls IH]; [reflexivity|]; cbn [compiled_instrs].
  destruct (classify l); simpl; rewrite ?IH; reflexivity.
Qed.

Lemma declare_free_optimized : forall ls str, filter is_declare (optimized_instrs str ls) = [].
Proof.
  induction ls as [|l ls IH]; intro str; [reflexivity|]; cbn [optimized_instrs].
  destruct (classify l); simpl; rewrite ?IH; reflexivity.
Qed.

Lemma world_app_nil : forall w, mkWorld (stdout w ++ [])%list (files w) = w.
Proof. intros [o f]; simpl; rewrite app_nil_r; reflexivity. Qed.

Lemma exec_compiled : forall ls st w,
  valid ls ->
  exec (Some st) (compiled_instrs ls) w =
    (mkWorld (stdout w ++ print_outputs st ls)%list (files w), Ok tt).
Proof.
  induction ls as [|l ls IH]; intros st w Hv; cbn [compiled_instrs print_outputs].
  - rewrite world_app_nil; reflexivity.
  - inversion Hv as [|? ? Hl Hls]; subst.
    destruct (classify l) as [| | |x]; [| contradiction | |]; simpl.
    + unfold bind; simpl; rewrite (IH st _ Hls); simpl; rewrite <- app_assoc; reflexivity.
    + exact (IH st w Hls).
    + exact (IH (st ++ x) w Hls).
Qed.

Lemma exec_optimized : forall ls str env w,
  valid ls ->
  exec env (optimized_instrs str ls) w =
    (mkWorld (stdout w ++ print_outputs str ls)%list (files w), Ok tt).
Proof.
  induction ls as [|l ls IH]; intros str env w Hv; cbn [optimized_instrs print_outputs].
  - rewrite world_app_nil; reflexivity.
  - inversion Hv as [|? ? Hl Hls]; subst.
    destruct (classify l) as [| | |x]; [| contradiction | |]; simpl.
    + unfold bind; simpl; rewrite (IH str env _ Hls); simpl; rewrite <- app_assoc; reflexivity.
    + exact (IH str env w Hls).
    + exact (IH (str ++ x) env w Hls).
Qed.

Lemma interp_outputs : forall ls st w,
  valid ls ->
  exists st', forEach interp_step st ls w =
                (mkWorld (stdout w ++ print_outputs st ls)%list (files w), Ok st').
Proof.
  induction ls as [|l ls IH]; intros st w Hv; simpl.
  - exists st; rewrite world_app_nil; reflexivity.
  - inversion Hv as [|? ? Hl Hls]; subst.
    unfold bind; unfold interp_step at 1.
    destruct (classify l) as [| | |x]; [| contradiction | |]; simpl.
    + destruct (IH st (mkWorld (stdout w ++ [st])%list (files w)) Hls) as [st' H].
      exists st'; rewrite H; simpl; rewrite <- app_assoc; reflexivity.
    + exact (IH st w Hls).
    + exact (IH (st ++ x) w Hls).
Qed.

Lemma interpreter_outputs_valid : forall src,
  valid (split_crlf src) ->
  outputs_of (interpreter_main src) = (print_outputs "" (split_crlf src), Ok tt).
Proof.
  intros src Hv; unfold outputs_of, interpreter_main, bind.
  destruct (interp_outputs (split_crlf src) "" empty_world Hv) as [st' H].
  rewrite H; reflexivity.
Qed.

(** ** Cross-strategy agreement on escape-free payloads *)

(** When no Emit payload holds a quote, a backslash or a line terminator,
    the program persisted by the AOT compiler, the one persisted by the
    optimizing compiler and the JIT all print what the interpreter prints. *)
Theorem cross_strategy_safe_payloads : forall src,
  valid (split_crlf src) ->
  Forall (fun l => safe_payload l = true) (split_crlf src) ->
  outputs_of (compiler_main src ;;; node_run "./output.js") =
    outputs_of (interpreter_main src) /\
  outputs_of (optimizer_main src ;;; node_run "./optimized-output.js") =
    outputs_of (interpreter_main src) /\
  outputs_of (jit_main src) = outputs_of (interpreter_main src).
Proof.
  intros src Hv Hs.
  rewrite (interpreter_outputs_valid src Hv).
  unfold outputs_of, bind.
  rewrite compiler_main_run, optimizer_main_run, jit_main_run.
  rewrite (compile_fold_chunks _ prelude Hv).
  destruct (opt_fold_chunks (split_crlf src) "" "" Hv) as [str' Hopt].
  rewrite Hopt.
  unfold node_run, update_file.
  cbn -[prelude append exec eval_program print_outputs optimized_chunks compiled_chunks].
  unfold eval_program.
  rewrite (parse_compiled_program _ Hv Hs).
  rewrite (parse_optimized_chunks _ "" Hv Hs eq_refl
    : parse_program ("" ++ optimized_chunks "" (split_crlf src)) = _).
  cbn [filter is_declare].
  rewrite declare_free_compiled, declare_free_optimized.
  simpl.
  rewrite !exec_compiled, exec_optimized by exact Hv.
  repeat split.
Qed.

Definition is_print_literal (i : instr) : Prop :=
  match i with PrintLiteral _ => True | _ => False end.

Lemma optimized_instrs_shape : forall ls str,
  valid ls ->
  Forall is_print_literal (optimized_instrs str ls) /\
  length (optimized_instrs str ls) = count_prints ls.
Proof.
  unfold count_prints, is_print.
  induction ls as [|l ls IH]; intros str Hv; [split; [constructor | reflexivity]|].
  inversion Hv as [|? ? Hl Hls]; subst; cbn [optimized_instrs filter].
  destruct (classify l) as [| | |x]; [| contradiction | |].
  - destruct (IH str Hls) as [Hf Hlen]; split; [constructor; [exact I | exact Hf]|].
    simpl; rewrite Hlen; reflexivity.
  - exact (IH str Hls).
  - exact (IH (str ++ x) Hls).
Qed.

(** ** The optimized program on escape-free payloads *)

(** When no Emit payload holds a quote, a backslash or a line terminator,
    the optimized program persisted for a valid source is made of
    [console.log('...')] statements only, one per Print statement. *)
Theorem optimizer_print_count_safe : forall src w,
  valid (split_crlf src) ->
  Forall (fun l => safe_payload l = true) (split_crlf src) ->
  exists text is,
    optimizer_main src w =
      (mkWorld (stdout w) (update_file (files w) "./optimized-output.js" text), Ok tt) /\
    parse_program text = Some is /\
    Forall is_print_literal is /\
    length is = count_prints (split_crlf src).
Proof.
  intros src w Hv Hs.
  destruct (opt_fold_chunks (split_crlf src) "" "" Hv) as [str' Hopt].
  exists (optimized_chunks "" (split_crlf src)), (optimized_instrs "" (split_crlf src)).
  rewrite optimizer_main_run, Hopt; split; [reflexivity|].
  split; [exact (parse_optimized_chunks _ "" Hv Hs eq_refl)|].
  exact (optimized_instrs_shape _ "" Hv).
Qed.

Lemma cross_strategy_safe_payloads_witness :
  (valid (split_crlf src_hello) /\
   Forall (fun l => safe_payload l = true) (split_crlf src_hello)) /\
  (outputs_of (compiler_main src_hello ;;; node_run "./output.js") =
     outputs_of (interpreter_main src_hello) /\
   outputs_of (optimizer_main src_hello ;;; node_run "./optimized-output.js") =
     outputs_of (interpreter_main src_hello) /\
   outputs_of (jit_main src_hello) = outputs_of (interpreter_main src_hello)).
Proof.
  assert (Hv : valid (split_crlf src_hello)) by (repeat constructor; discriminate).
  assert (Hs : Forall (fun l => safe_payload l = true) (split_crlf src_hello))
    by (repeat constructor).
  split; [split; assumption|].
  exact (cross_strategy_safe_payloads src_hello Hv Hs).
Defined.

Lemma optimizer_print_count_safe_witness :
  (valid (split_crlf src_hello) /\
   Forall (fun l => safe_payload l = true) (split_crlf src_hello)) /\
  exists text is,
    optimizer_main src_hello empty_world =
      (mkWorld (stdout empty_world)
         (update_file (files empty_world) "./optimized-output.js" text), Ok tt) /\
    parse_program text = Some is /\
    Forall is_print_literal is /\
    length is = count_prints (split_crlf src_hello).
Proof.
  assert (Hv : valid (split_crlf src_hello)) by (repeat constructor; discriminate).
  assert (Hs : Forall (fun l => safe_payload l = true) (split_crlf src_hello))
    by (repeat constructor).
  split; [split; assumption|].
  exact (optimizer_print_count_safe src_hello empty_world Hv Hs).
Defined.

(** ** [split("\r\n")] loses nothing *)

(** [lines.join("\r\n")] *)
Fixpoint join_crlf (ls : list string) : string :=
  match ls with
  | [] => EmptyString
  | [x] => x
  | x :: xs => x ++ crlf ++ join_crlf xs
  end.

Lemma split_crlf_nonempty : forall s, split_crlf s <> [].
Proof.
  intros [|c s]; simpl; [discriminate|].
  destruct (Ascii.eqb c CR); [destruct s as [|c2 s]; [|destruct (Ascii.eqb c2 LF)]|];
    try discriminate; unfold cons_head; destruct (split_crlf _); discriminate.
Qed.

Lemma join_cons_head : forall c ls,
  ls <> [] -> join_crlf (cons_head c ls) = String c (join_crlf ls).
Proof.
  intros c [|x [|y ys]] H; [contradiction | reflexivity | reflexivity].
Qed.

(** Splitting a source on ["\r\n"] and joining the lines back with
    ["\r\n"] gives the source again: every character of the source is in
    exactly one line, and the split always yields at least one line. *)
Theorem split_crlf_join : forall s,
  join_crlf (split_crlf s) = s /\ split_crlf s <> [].
Proof.
  intro s; split; [|apply split_crlf_nonempty].
  remember (String.length s) as n eqn:Hn.
  assert (Hle : String.length s <= n) by lia; clear Hn.
  revert s Hle; induction n as [|n IH]; intros [|c s] Hle; simpl in Hle;
    try reflexivity; [lia|].
  simpl.
  assert (Hs : join_crlf (cons_head c (split_crlf s)) = String c s).
  { rewrite join_cons_head by apply split_crlf_nonempty.
    rewrite (IH s) by lia; reflexivity. }
  destruct (Ascii.eqb_spec c CR) as [->|Hc]; [|exact Hs].
  destruct s as [|c2 s]; [exact Hs|].
  destruct (Ascii.eqb_spec c2 LF) as [->|Hc2]; [|exact Hs].
  destruct (split_crlf s) as [|x xs] eqn:E; [exfalso; exact (split_crlf_nonempty s E)|].
  change (join_crlf (EmptyString :: x :: xs)) with (EmptyString ++ crlf ++ join_crlf (x :: xs)).
  rewrite <- E, (IH s) by (simpl in Hle; lia); reflexivity.
Qed.

(** ** The JIT is the AOT compiler followed by a run *)




(** ** The optimizing compiler replays the interpreter *)

(** One [console.log('...')] line per printed string. *)
Definition print_statements (outs : list string) : string :=
  fold_right (fun o acc => "console.log('" ++ o ++ "')" ++ nl ++ acc) EmptyString outs.

Lemma optimized_chunks_outputs : forall ls str,
  valid ls -> optimized_chunks str ls = print_statements (print_outputs str ls).
Proof.
  induction ls as [|l ls IH]; intros str Hv; [reflexivity|].
  inversion Hv as [|? ? Hl Hls]; subst; cbn [optimized_chunks print_outputs].
  destruct (classify l) as [| | |x]; [| contradiction | |].
  - simpl; rewrite (IH str Hls); reflexivity.
  - exact (IH str Hls).
  - exact (IH (str ++ x) Hls).
Qed.

(** On a valid source, whatever its payloads, the optimizing compiler runs
    the interpreter at compile time: it writes one line
    [console.log('<o>')] for each string [o] the interpreter prints, in the
    same order, and nothing else. *)
Theorem optimizer_replays_interpreter : forall src w,
  valid (split_crlf src) ->
  optimizer_main src w =
    (mkWorld (stdout w)
       (update_file (files w) "./optimized-output.js"
          (print_statements (fst (outputs_of (interpreter_main src))))), Ok tt).
Proof.
  intros src w Hv.
  rewrite (interpreter_outputs_valid src Hv), optimizer_main_run.
  destruct (opt_fold_chunks (split_crlf src) "" "" Hv) as [str' H].
  rewrite H; simpl; rewrite (optimized_chunks_outputs _ "" Hv); reflexivity.
Qed.

Lemma optimizer_replays_interpreter_witness :
  valid (split_crlf src_backslash) /\
  optimizer_main src_backslash empty_world =
    (mkWorld (stdout empty_world)
       (update_file (files empty_world) "./optimized-output.js"
          (print_statements (fst (outputs_of (interpreter_main src_backslash))))), Ok tt).
Proof.
  assert (Hv : valid (split_crlf src_backslash))
    by (constructor; [discriminate | constructor; [discriminate | constructor]]).
  split; [exact Hv|].
  exact (optimizer_replays_interpreter src_backslash empty_world Hv).
Defined.

(** ** The interpreter of the article (src/jit.js, lines 72-84)

    The first interpreter the article shows knows only Prints: every other
    line, comments and lines starting with [t] included, is appended. *)

Definition article_interp_step (string_ : string) (line : string) : M string :=
  if is_char (first_char line) "p"%char then console_log string_ ;;; ret string_
  else ret (string_ ++ line).

Definition article_interpreter_main (sourceCode : string) : M unit :=
  _ <- forEach article_interp_step "" (split_crlf sourceCode) ;; ret tt.

Definition plain_line (l : string) : Prop :=
  is_char (first_char l) "#"%char = false /\ is_char (first_char l) "t"%char = false.

Lemma article_forEach_agrees : forall ls st w,
  Forall plain_line ls ->
  forEach article_interp_step st ls w = forEach interp_step st ls w.
Proof.
  induction ls as [|l ls IH]; intros st w Hp; [reflexivity|].
  inversion Hp as [|? ? [Hh Ht] Hps]; subst; simpl; unfold bind.
  unfold article_interp_step at 1, interp_step at 1, classify.
  rewrite Ht, Hh.
  destruct (is_char (first_char l) "p"%char); simpl; apply IH; exact Hps.
Qed.

(** On a source where no line starts with [#] or [t], the article's
    interpreter and the final interpreter have the same effect on the world
    and end the same way. *)
Theorem article_interpreter_agrees : forall src w,
  Forall plain_line (split_crlf src) ->
  article_interpreter_main src w = interpreter_main src w.
Proof.
  intros src w Hp; unfold article_interpreter_main, interpreter_main, bind.
  rewrite (article_forEach_agrees _ "" w Hp); reflexivity.
Qed.

Lemma article_interpreter_agrees_witness :
  Forall plain_line (split_crlf src_hello) /\
  article_interpreter_main src_hello empty_world = interpreter_main src_hello empty_world.
Proof.
  assert (Hp : Forall plain_line (split_crlf src_hello))
    by (repeat constructor).
  split; [exact Hp|].
  exact (article_interpreter_agrees src_hello empty_world Hp).
Defined.

Lemma article_forEach_total : forall ls st w,
  exists outs st',
    forEach article_interp_step st ls w =
      (mkWorld (stdout w ++ outs)%list (files w), Ok st') /\
    length outs = length (filter (fun l => is_char (first_char l) "p"%char) ls).
Proof.
  induction ls as [|l ls IH]; intros st w; simpl.
  - exists [], st; rewrite world_app_nil; split; reflexivity.
  - unfold bind; unfold article_interp_step at 1.
    destruct (is_char (first_char l) "p"%char); simpl.
    + destruct (IH st (mkWorld (stdout w ++ [st])%list (files w)))
        as [outs [st' [H Hlen]]].
      exists (st :: outs), st'; rewrite H; simpl; rewrite <- app_assoc.
      split; [reflexivity | simpl; f_equal; exact Hlen].
    + exact (IH (st ++ l) w).
Qed.

(** The article's interpreter never throws, whatever the source (it has no
    invalid lines), never touches a file, and prints exactly one string per
    line starting with [p]. *)
Theorem article_interpreter_total : forall src w,
  exists outs,
    article_interpreter_main src w = (mkWorld (stdout w ++ outs)%list (files w), Ok tt) /\
    length outs =
      length (filter (fun l => is_char (first_char l) "p"%char) (split_crlf src)).
Proof.
  intros src w; unfold article_interpreter_main, bind.
  destruct (article_forEach_total (split_crlf src) "" w) as [outs [st' [H Hlen]]].
  exists outs; rewrite H; split; [reflexivity | exact Hlen].
Qed.
